(** * cosmogony2cities: the normalisation, geometry encoding, batching and
    transactional loading of [src/main.rs], as a shallow embedding. *)

From Stdlib Require Import Ascii ZArith Lia.
From stdpp Require Import base list strings gmap sorting pretty.

Open Scope string_scope.

(* ------------------------------------------------------------------ *)
(** ** Input data model ([cosmogony::Zone]) *)

(** Coordinates of [geo_types] are [f64]; the model carries the values that
    are whole numbers, which Rust's [Display] for [f64] prints as the
    integer without a fractional part ([12.0] prints as [12]). *)
Record Coord := mkCoord { x : Z; y : Z }.

Definition Point := Coord.

Definition LineString := list Coord.

Record Polygon := mkPolygon { exterior : LineString; interiors : list LineString }.

Definition MultiPolygon := list Polygon.

Inductive ZoneType :=
| Suburb | CityDistrict | City | StateDistrict | State
| CountryRegion | Country | NonAdministrative.

Global Instance ZoneType_eq_dec : EqDecision ZoneType.
Proof. solve_decision. Defined.

Record ZoneIndex := mkZoneIndex { index : nat }.

Record Zone := mkZone {
  id : ZoneIndex;
  osm_id : string;
  name : string;
  tags : gmap string string;
  center : option Point;
  boundary : option MultiPolygon;
  zone_type : option ZoneType
}.

(** [Zone::default()]. *)
Definition zone_default : Zone :=
  mkZone (mkZoneIndex 0) "" "" ∅ None None None.

(* ------------------------------------------------------------------ *)
(** ** Canonical record ([AdministrativeRegion]) *)

Record AdministrativeRegion := mkAdministrativeRegion {
  ar_id : Z;
  ar_name : string;
  ar_uri : string;
  ar_post_code : option string;
  ar_insee : option string;
  ar_level : option Z;
  ar_coord : option Point;
  ar_boundary : option MultiPolygon
}.

(** [x as i64] for a [usize] on a 64-bit target: two's complement wrap. *)
Definition usize_as_i64 (n : nat) : Z :=
  let z := (Z.of_nat n mod 2 ^ 64)%Z in
  if Z.ltb z (2 ^ 63)%Z then z else (z - 2 ^ 64)%Z.

(** [str::split(';')]: every separator cuts, empty pieces are kept and
    the empty string gives one empty piece. *)
Fixpoint split (sep : ascii) (s : string) : list string :=
  match s with
  | EmptyString => [""]
  | String c rest =>
      let parts := split sep rest in
      if Ascii.eqb c sep then "" :: parts
      else match parts with
           | p :: ps => String c p :: ps
           | [] => [String c ""]
           end
  end.

(** [Itertools::sorted] on [String]: byte-wise lexicographic order, which
    is stdpp's [String.le] (it compares the [ascii] codes as numbers). *)
Definition sorted (l : list string) : list string := merge_sort String.le l.

(** [Option::unwrap] at a place where the value is known to be present. *)
Definition unwrap (o : option string) : string := default "" o.

Definition format_zip_codes (zip_codes : list string) : option string :=
  match length zip_codes with
  | 0 => None
  | 1 => Some (unwrap (head zip_codes))
  | _ => Some (unwrap (head zip_codes) ++ "-" ++ unwrap (last zip_codes))
  end.

Definition is_empty (s : string) : bool :=
  match s with EmptyString => true | _ => false end.

(** [impl From<Zone> for AdministrativeRegion]. *)
Definition from_zone (zone : Zone) : AdministrativeRegion :=
  let insee := zone.(tags) !! "ref:INSEE" in
  let uri := match insee with
             | Some insee => "admin:fr:" ++ insee
             | None => "admin:osm:" ++ zone.(osm_id)
             end in
  let val := match zone.(tags) !! "addr:postcode" with
             | Some v => Some v
             | None => zone.(tags) !! "postal_code"
             end in
  let zip_codes :=
    sorted (filter (fun s => is_empty s = false)
                   (split ";" (match val with Some v => v | None => "" end))) in
  let post_code := format_zip_codes zip_codes in
  {| ar_id := usize_as_i64 zone.(id).(index);
     ar_name := zone.(name);
     ar_uri := uri;
     ar_insee := insee;
     ar_level := Some 8%Z;
     ar_post_code := post_code;
     ar_coord := zone.(center);
     ar_boundary := zone.(boundary) |}.

(* ------------------------------------------------------------------ *)
(** ** Geometry encoding ([geo_types] to [wkt], then [Display]) *)

(** [wkt::types::Coord] without [z] and [m], as [to_wkt] builds it. *)
Definition coord_to_string (c : Coord) : string :=
  pretty c.(x) ++ " " ++ pretty c.(y).

(** [String] join of [Vec<String>::join]. *)
Fixpoint join (sep : string) (l : list string) : string :=
  match l with
  | [] => ""
  | [s] => s
  | s :: rest => s ++ sep ++ join sep rest
  end.

(** [wkt] values produced by [ToWkt] for a point and a multi-polygon. *)
Definition WktPoint := option Coord.
Definition WktLineString := list Coord.
Definition WktPolygon := list WktLineString.
Definition WktMultiPolygon := list WktPolygon.

(** [g_point_to_w_point]. *)
Definition point_to_wkt (p : Point) : WktPoint := Some p.

(** [g_polygon_to_w_polygon]: the exterior ring (dropped when empty), then
    the interior rings. *)
Definition polygon_to_wkt (p : Polygon) : WktPolygon :=
  ((if decide (p.(exterior) = []) then [] else [p.(exterior)]) ++ p.(interiors))%list.

Definition multipolygon_to_wkt (mp : MultiPolygon) : WktMultiPolygon :=
  map polygon_to_wkt mp.

(** [impl Display for wkt::types::Point]. *)
Definition display_point (p : WktPoint) : string :=
  match p with
  | Some c => "POINT(" ++ coord_to_string c ++ ")"
  | None => "POINT EMPTY"
  end.

(** [impl Display for wkt::types::MultiPolygon]. *)
Definition display_multipolygon (mp : WktMultiPolygon) : string :=
  match mp with
  | [] => "MULTIPOLYGON EMPTY"
  | _ =>
      let strings :=
        join ")),((" (map (fun p => join "),(" (map (fun l =>
          join "," (map coord_to_string l)) p)) mp) in
      "MULTIPOLYGON(((" ++ strings ++ ")))"
  end.

(** [g.to_wkt().items[0].to_string()] for [g] built from a point or a
    multi-polygon. *)
Definition point_wkt (p : Point) : string := display_point (point_to_wkt p).
Definition multipolygon_wkt (mp : MultiPolygon) : string :=
  display_multipolygon (multipolygon_to_wkt mp).

(* ------------------------------------------------------------------ *)
(** ** SQL parameters ([AdministrativeRegion::into_sql_params]) *)

(** What a boxed [ToSql] value sends: [Option::None] is SQL [NULL]. *)
Inductive SqlValue :=
| SqlNull
| SqlInt (z : Z)
| SqlText (s : string).

Global Instance SqlValue_eq_dec : EqDecision SqlValue.
Proof. solve_decision. Defined.

Definition opt_text (o : option string) : SqlValue :=
  match o with Some s => SqlText s | None => SqlNull end.

Definition opt_int (o : option Z) : SqlValue :=
  match o with Some z => SqlInt z | None => SqlNull end.

Definition into_sql_params (self : AdministrativeRegion) : list SqlValue :=
  let coord := option_map point_wkt self.(ar_coord) in
  let boundary := option_map multipolygon_wkt self.(ar_boundary) in
  [ SqlInt self.(ar_id);
    SqlText self.(ar_name);
    SqlText self.(ar_uri);
    opt_text self.(ar_post_code);
    opt_text self.(ar_insee);
    opt_int self.(ar_level);
    opt_text coord;
    opt_text boundary ].

(* ------------------------------------------------------------------ *)
(** ** Batching: [Pack] of [par_map] and the rendered [INSERT] *)

(** [Iterator::pack(n)]: each [next] takes up to [n] items and ends the
    iteration when it takes none.  The fuel is the input length, enough
    for every step that takes something. *)
Fixpoint pack_go {A} (fuel n : nat) (l : list A) : list (list A) :=
  match fuel with
  | 0 => []
  | S fuel =>
      match take n l with
      | [] => []
      | v => v :: pack_go fuel n (drop n l)
      end
  end.

Definition pack {A} (n : nat) (l : list A) : list (list A) :=
  pack_go (length l) n l.

(** The [format!] of one row, for [base_cpt = i * 8]. *)
Definition format_row (base_cpt : nat) : string :=
  "($" ++ pretty (base_cpt + 1) ++ ", $" ++ pretty (base_cpt + 2) ++
  ", $" ++ pretty (base_cpt + 3) ++ ", $" ++ pretty (base_cpt + 4) ++
  ", $" ++ pretty (base_cpt + 5) ++ ", $" ++ pretty (base_cpt + 6) ++
  ", ST_GeomFromText($" ++ pretty (base_cpt + 7) ++
  "), ST_GeomFromText($" ++ pretty (base_cpt + 8) ++ "))".

(** The body of the [for i in 0..nb_admins] loop. *)
Definition render_step (query : string) (i : nat) : string :=
  let base_cpt := i * 8 in
  let query := if decide (i ≠ 0) then query ++ ", " else query in
  query ++ format_row base_cpt.

Definition render_query (nb_admins : nat) : string :=
  let query := "INSERT INTO administrative_regions VALUES " in
  let query := fold_left render_step (seq 0 nb_admins) query in
  query ++ ";".

(** The closure given to [par_map]. *)
Definition render_chunk {A} (admins_chunks : list A) : string * list A :=
  (render_query (length admins_chunks), admins_chunks).

(** [par_map] hands back the results in the order of its input. *)
Definition par_map {A B} (f : A -> B) (l : list A) : list B := map f l.

Definition batch_size : nat := 500.

(* ------------------------------------------------------------------ *)
(** ** Transactional loader ([send_to_pg]) and driver ([import_zones]) *)

Inductive LoadError :=
| ConnectionError
| ExecutionError (query : string)
| CommitError.

Inductive Result (A : Type) :=
| Ok (a : A)
| Err (e : LoadError).
Arguments Ok {A} a.
Arguments Err {A} e.

Abbreviation Stmt := (string * list SqlValue)%type.

(** The database seen through one connection: whether [cnx.transaction()]
    succeeds, what executing a statement does to the table contents
    ([None] is a failed execution), and whether [COMMIT] succeeds. *)
Record Store (tbl : Type) := mkStore {
  store_begin_ok : bool;
  store_exec : string -> list SqlValue -> tbl -> option tbl;
  store_commit_ok : tbl -> bool
}.
Arguments store_begin_ok {tbl} s.
Arguments store_exec {tbl} s _ _ _.
Arguments store_commit_ok {tbl} s _.

(** An open [postgres::Transaction]: the contents it has written so far
    and the statements sent through it. *)
Record Txn (tbl : Type) := mkTxn { txn_working : tbl; txn_log : list Stmt }.
Arguments mkTxn {tbl} _ _.
Arguments txn_working {tbl} _.
Arguments txn_log {tbl} _.

(** Code running against the transaction, with [?] as the error exit. *)
Definition TxM (tbl A : Type) : Type := Txn tbl -> Result A * Txn tbl.

Definition tx_ret {tbl A} (a : A) : TxM tbl A := fun t => (Ok a, t).

Definition tx_bind {tbl A B} (m : TxM tbl A) (k : A -> TxM tbl B) : TxM tbl B :=
  fun t => match m t with
           | (Ok a, t') => k a t'
           | (Err e, t') => (Err e, t')
           end.

Notation "m ;;; k" := (tx_bind m (fun _ => k))
  (at level 100, right associativity).

Section Loader.
Context {tbl : Type} (st : Store tbl).

(** [transaction.execute(query, params)?]. *)
Definition execute (query : string) (params : list SqlValue) : TxM tbl unit :=
  fun t =>
    let log := (txn_log t ++ [(query, params)])%list in
    match store_exec st query params (txn_working t) with
    | Some w => (Ok tt, mkTxn w log)
    | None => (Err (ExecutionError query), mkTxn (txn_working t) log)
    end.

(** A [for] loop whose body ends in [?]. *)
Fixpoint for_each {A} (xs : list A) (body : A -> TxM tbl unit) : TxM tbl unit :=
  match xs with
  | [] => tx_ret tt
  | x :: xs => body x ;;; for_each xs body
  end.

Definition truncate_query : string := "TRUNCATE TABLE administrative_regions;".

(** The statements of one run, in the order [send_to_pg] sends them. *)
Definition batches (admins : list (list SqlValue)) : list Stmt :=
  map (fun '(query, admins_chunks) => (query, concat admins_chunks))
      (par_map render_chunk (pack batch_size admins)).

(** The part of [send_to_pg] between [cnx.transaction()] and [commit()]. *)
Definition send_to_pg_body (admins : list (list SqlValue)) : TxM tbl unit :=
  execute truncate_query [] ;;;
  for_each (par_map render_chunk (pack batch_size admins))
    (fun '(query, admins_chunks) =>
       let params := concat admins_chunks in
       execute query params).

(** [send_to_pg]: the result, the table contents visible to other
    sessions afterwards, and the statements sent.  A [Transaction] dropped
    without [commit] rolls back, and a failed [COMMIT] publishes nothing. *)
Definition send_to_pg (admins : list (list SqlValue)) (db : tbl)
    : Result unit * tbl * list Stmt :=
  if store_begin_ok st then
    match send_to_pg_body admins (mkTxn db []) with
    | (Ok _, t) =>
        if store_commit_ok st (txn_working t) then (Ok tt, txn_working t, txn_log t)
        else (Err CommitError, db, txn_log t)
    | (Err e, t) => (Err e, db, txn_log t)
    end
  else (Err ConnectionError, db, []).

Definition is_city (z : Zone) : Prop := z.(zone_type) = Some City.

Global Instance is_city_dec z : Decision (is_city z).
Proof. unfold is_city. apply _. Defined.

(** The iterator [cities] of [import_zones]. *)
Definition cities (zones : list Zone) : list (list SqlValue) :=
  map (fun a => into_sql_params a) (map from_zone (filter is_city zones)).

Definition import_zones (zones : list Zone) (db : tbl) : Result unit * tbl * list Stmt :=
  send_to_pg (cities zones) db.

(** Running statements one after the other on a table, stopping at the
    first failure. *)
Fixpoint exec_seq (stmts : list Stmt) (t : tbl) : option tbl :=
  match stmts with
  | [] => Some t
  | (q, ps) :: rest =>
      match store_exec st q ps t with
      | Some t' => exec_seq rest t'
      | None => None
      end
  end.

End Loader.

(** The zones of the repository's test. *)
Definition zone2 : Zone :=
  mkZone (mkZoneIndex 1) "" "toto"
    (<["ref:INSEE" := "75111"]> (<["addr:postcode" := "75011;75111"]> ∅))
    (Some (mkCoord 12 14))
    (Some [mkPolygon [mkCoord 0 0; mkCoord 1 0; mkCoord 1 1; mkCoord 0 1; mkCoord 0 0] []])
    (Some City).

Example zone2_post_code : (from_zone zone2).(ar_post_code) = Some "75011-75111".
Proof. vm_compute. reflexivity. Qed.

Example zone2_uri : (from_zone zone2).(ar_uri) = "admin:fr:75111".
Proof. vm_compute. reflexivity. Qed.

Example zone2_coord_wkt : option_map point_wkt (from_zone zone2).(ar_coord) = Some "POINT(12 14)".
Proof. vm_compute. reflexivity. Qed.

Example zone2_boundary_wkt :
  option_map multipolygon_wkt (from_zone zone2).(ar_boundary)
  = Some "MULTIPOLYGON(((0 0,1 0,1 1,0 1,0 0)))".
Proof. vm_compute. reflexivity. Qed.

Example render_2 : render_query 2 =
  "INSERT INTO administrative_regions VALUES ($1, $2, $3, $4, $5, $6, ST_GeomFromText($7), ST_GeomFromText($8)), ($9, $10, $11, $12, $13, $14, ST_GeomFromText($15), ST_GeomFromText($16));".
Proof. vm_compute. reflexivity. Qed.

Example pack_5 : pack 2 [1;2;3;4;5] = [[1;2];[3;4];[5]].
Proof. reflexivity. Qed.

(* ------------------------------------------------------------------ *)
(** ** Normalisation: reference code, uri, level, name *)

Lemma fr_osm_prefix_disjoint (c o : string) :
  "admin:fr:" ++ c ≠ "admin:osm:" ++ o.
Proof. intros H. cbv [String.append] in H. congruence. Qed.

(** C3: with a [ref:INSEE] tag, [insee] is its value verbatim and [uri]
    is ["admin:fr:"] followed by it; without one, [insee] is absent and
    [uri] is ["admin:osm:"] followed by the source identifier; the [uri]
    has exactly one of the two forms. *)
Theorem from_zone_insee_uri (zone : Zone) :
  match zone.(tags) !! "ref:INSEE" with
  | Some v => (from_zone zone).(ar_insee) = Some v ∧
              (from_zone zone).(ar_uri) = "admin:fr:" ++ v
  | None => (from_zone zone).(ar_insee) = None ∧
            (from_zone zone).(ar_uri) = "admin:osm:" ++ zone.(osm_id)
  end ∧
  ((∃ c, (from_zone zone).(ar_uri) = "admin:fr:" ++ c) ∨
   (∃ o, (from_zone zone).(ar_uri) = "admin:osm:" ++ o)) ∧
  ¬ ((∃ c, (from_zone zone).(ar_uri) = "admin:fr:" ++ c) ∧
     (∃ o, (from_zone zone).(ar_uri) = "admin:osm:" ++ o)).
Proof.
  unfold from_zone; simpl.
  split; [destruct (tags zone !! "ref:INSEE"); auto|].
  split.
  - destruct (tags zone !! "ref:INSEE"); eauto.
  - intros [[c Hc] [o Ho]]. rewrite Hc in Ho.
    exact (fr_osm_prefix_disjoint c o Ho).
Qed.

(** C10: only the presence of the [ref:INSEE] key matters: an empty value
    gives [insee = Some ""] and [uri = "admin:fr:"], never the
    ["admin:osm:"] form. *)
Theorem from_zone_empty_insee (zone : Zone) :
  zone.(tags) !! "ref:INSEE" = Some "" →
  (from_zone zone).(ar_insee) = Some "" ∧
  (from_zone zone).(ar_uri) = "admin:fr:" ∧
  ∀ o, (from_zone zone).(ar_uri) ≠ "admin:osm:" ++ o.
Proof.
  intros H. unfold from_zone; simpl. rewrite H.
  split; [done|]. split; [done|].
  intros o. exact (fr_osm_prefix_disjoint "" o).
Qed.

Lemma from_zone_empty_insee_witness :
  let z := mkZone (mkZoneIndex 3) "r42" "Somewhere"
             (<["ref:INSEE" := ""]> ∅) None None (Some City) in
  z.(tags) !! "ref:INSEE" = Some "" ∧
  (from_zone z).(ar_insee) = Some "" ∧
  (from_zone z).(ar_uri) = "admin:fr:" ∧
  ∀ o, (from_zone z).(ar_uri) ≠ "admin:osm:" ++ o.
Proof.
  cbv zeta. split; [vm_compute; reflexivity|].
  apply from_zone_empty_insee. vm_compute. reflexivity.
Defined.

(** C8: every record of the pipeline has level [8], and its sixth SQL
    parameter is the integer [8], whatever the zone. *)
Theorem level_is_8 (zones : list Zone) :
  (∀ zone, (from_zone zone).(ar_level) = Some 8%Z) ∧
  Forall (fun params => params !! 5 = Some (SqlInt 8)) (cities zones).
Proof.
  split; [done|].
  unfold cities. rewrite map_map. apply Forall_forall.
  intros params Hin. apply list_elem_of_fmap in Hin as [z [-> _]]. done.
Qed.

(** C9, as stated: every record's name is non-empty. *)
Definition name_nonempty_claim : Prop :=
  ∀ zone, (from_zone zone).(ar_name) ≠ "".

(** C9 fails on [Zone::default()], whose name is empty. *)
Lemma name_nonempty_counterexample : ¬ name_nonempty_claim.
Proof.
  unfold name_nonempty_claim. intros H. apply (H zone_default). reflexivity.
Qed.

(** C9, amended: the record's name (and its second SQL parameter) is the
    zone's name copied verbatim, so it is non-empty exactly when the
    zone's name is. *)
Theorem name_copied_verbatim (zone : Zone) :
  (from_zone zone).(ar_name) = zone.(name) ∧
  into_sql_params (from_zone zone) !! 1 = Some (SqlText zone.(name)) ∧
  ((from_zone zone).(ar_name) ≠ "" ↔ zone.(name) ≠ "").
Proof. simpl. done. Qed.

(* ------------------------------------------------------------------ *)
(** ** Geometry encoding and nulls *)

(** C6: the point [(12, 14)] encodes to ["POINT(12 14)"], the unit square
    to ["MULTIPOLYGON(((0 0,1 0,1 1,0 1,0 0)))"], and the [coord] and
    [boundary] parameters are SQL [NULL] exactly when the geometry is
    absent, never an empty text. *)
Theorem geometry_encoding :
  point_wkt (mkCoord 12 14) = "POINT(12 14)" ∧
  multipolygon_wkt
    [mkPolygon [mkCoord 0 0; mkCoord 1 0; mkCoord 1 1; mkCoord 0 1; mkCoord 0 0] []]
  = "MULTIPOLYGON(((0 0,1 0,1 1,0 1,0 0)))" ∧
  ∀ r : AdministrativeRegion,
    (into_sql_params r !! 6 = Some SqlNull ↔ r.(ar_coord) = None) ∧
    (into_sql_params r !! 7 = Some SqlNull ↔ r.(ar_boundary) = None) ∧
    into_sql_params r !! 6 ≠ Some (SqlText "") ∧
    into_sql_params r !! 7 ≠ Some (SqlText "").
Proof.
  split; [vm_compute; reflexivity|].
  split; [vm_compute; reflexivity|].
  intros r. unfold into_sql_params; simpl.
  destruct (ar_coord r) as [c|], (ar_boundary r) as [mp|]; simpl;
    repeat split; try done;
    unfold point_wkt, multipolygon_wkt, display_multipolygon;
    try (destruct (multipolygon_to_wkt mp)); done.
Qed.

(* ------------------------------------------------------------------ *)
(** ** Postal codes *)

Lemma filter_is_empty (l : list string) :
  filter (fun s => is_empty s = false) l = filter (fun s => s ≠ "") l.
Proof.
  induction l as [|s l IH]; [done|].
  rewrite !filter_cons. rewrite IH.
  destruct s; simpl; repeat case_decide; congruence.
Qed.

Lemma sorted_unique (segs l : list string) :
  segs ≡ₚ l → Sorted String.le segs → sorted l = segs.
Proof.
  intros Hp Hs. unfold sorted.
  apply (Sorted_unique String.le).
  - apply Sorted_merge_sort. apply _.
  - exact Hs.
  - rewrite merge_sort_Permutation. by symmetry.
Qed.

(** The value read for the postal code: [addr:postcode], else
    [postal_code], else the empty string. *)
Definition postcode_value (zone : Zone) : string :=
  match zone.(tags) !! "addr:postcode" with
  | Some v => v
  | None => match zone.(tags) !! "postal_code" with Some v => v | None => "" end
  end.

(** C2: for the segments of the postal-code value split on [;], without
    the empty ones, taken in lexicographic order ([segs] is any sorted
    arrangement of them, and there is only one), [post_code] is absent
    for no segment, the segment for one, and ["<first>-<last>"] for more. *)
Theorem from_zone_post_code (zone : Zone) (segs : list string) :
  segs ≡ₚ filter (fun s => s ≠ "") (split ";" (postcode_value zone)) →
  Sorted String.le segs →
  (from_zone zone).(ar_post_code) =
    match segs with
    | [] => None
    | [s] => Some s
    | first :: _ => Some (first ++ "-" ++ default "" (last segs))
    end.
Proof.
  intros Hp Hs. unfold from_zone; cbn [ar_post_code].
  assert (Hv : (match match tags zone !! "addr:postcode" with
                      | Some v => Some v
                      | None => tags zone !! "postal_code" end with
                | Some v => v | None => "" end) = postcode_value zone).
  { unfold postcode_value. by destruct (tags zone !! "addr:postcode"). }
  rewrite Hv, filter_is_empty, (sorted_unique segs); [|done|done].
  unfold format_zip_codes, unwrap.
  destruct segs as [|s [|s' rest]]; done.
Qed.

Lemma from_zone_post_code_witness :
  let z := zone2 in
  let segs := ["75011"; "75111"] in
  (segs ≡ₚ filter (fun s => s ≠ "") (split ";" (postcode_value z)) ∧
   Sorted String.le segs) ∧
  (from_zone z).(ar_post_code) =
    match segs with
    | [] => None
    | [s] => Some s
    | first :: _ => Some (first ++ "-" ++ default "" (last segs))
    end.
Proof.
  cbv zeta.
  assert (Hp : ["75011"; "75111"] ≡ₚ
               filter (fun s => s ≠ "") (split ";" (postcode_value zone2))).
  { vm_compute. reflexivity. }
  assert (Hs : Sorted String.le ["75011"; "75111"]).
  { repeat constructor; vm_compute; exact I. }
  split; [split; assumption|].
  exact (from_zone_post_code zone2 ["75011"; "75111"] Hp Hs).
Defined.

(* ------------------------------------------------------------------ *)
(** ** The rendered statement *)

(** The [k]-th placeholder of a statement. *)
Definition placeholder (k : nat) : string := "$" ++ pretty k.

Definition geom_from_text (arg : string) : string := "ST_GeomFromText(" ++ arg ++ ")".

(** Row [i] as the claim describes it: placeholders [i*8+1] to [i*8+6]
    as they are, then [i*8+7] and [i*8+8] inside [ST_GeomFromText]. *)
Definition row_spec (i : nat) : string :=
  "(" ++ join ", " (map (fun k => placeholder (i * 8 + k)) (seq 1 6) ++
                    map (fun k => geom_from_text (placeholder (i * 8 + k))) (seq 7 2))%list
      ++ ")".

Lemma string_app_assoc (a b c : string) : a ++ (b ++ c) = (a ++ b) ++ c.
Proof. induction a as [|ch a IH]; [done|exact (f_equal (String ch) IH)]. Qed.

Lemma string_app_nil_r (a : string) : a ++ "" = a.
Proof. induction a as [|ch a IH]; [done|exact (f_equal (String ch) IH)]. Qed.

Lemma row_spec_format_row (i : nat) : row_spec i = format_row (i * 8).
Proof.
  unfold row_spec, format_row, placeholder, geom_from_text. cbn [seq map app join].
  rewrite <- !string_app_assoc. reflexivity.
Qed.

Lemma join_snoc (sep : string) (l : list string) (s : string) :
  l ≠ [] → join sep (l ++ [s])%list = join sep l ++ sep ++ s.
Proof.
  intros Hl. induction l as [|a l IH]; [done|].
  destruct l as [|b l].
  - reflexivity.
  - change (join sep ((a :: b :: l) ++ [s])%list)
      with (a ++ sep ++ join sep ((b :: l) ++ [s])%list).
    rewrite IH by done. cbn [join].
    rewrite <- !string_app_assoc. reflexivity.
Qed.

Lemma render_loop (n : nat) (q : string) :
  fold_left render_step (seq 0 n) q = q ++ join ", " (map format_row (map (fun i => i * 8) (seq 0 n))).
Proof.
  induction n as [|n IH].
  - simpl. by rewrite string_app_nil_r.
  - rewrite seq_S, fold_left_app, IH. cbn [fold_left].
    unfold render_step. rewrite !map_app. cbn [map].
    destruct n as [|n].
    + cbn [map seq join]. rewrite decide_False by lia. by rewrite string_app_nil_r.
    + rewrite decide_True by lia.
      rewrite join_snoc by (simpl; discriminate).
      rewrite <- !string_app_assoc. reflexivity.
Qed.

(** C5: the statement for a chunk of [n] records is one
    [INSERT INTO administrative_regions VALUES] whose row [i] (from 0)
    uses placeholders [i*8+1] to [i*8+8], the last two wrapped in
    [ST_GeomFromText]; rows are separated by [", "]. *)
Theorem render_query_rows (n : nat) :
  render_query n =
  "INSERT INTO administrative_regions VALUES " ++ join ", " (map row_spec (seq 0 n)) ++ ";".
Proof.
  unfold render_query. rewrite render_loop, map_map.
  rewrite (map_ext row_spec (fun i => format_row (i * 8))) by apply row_spec_format_row.
  rewrite <- string_app_assoc. reflexivity.
Qed.

(* ------------------------------------------------------------------ *)
(** ** Batching *)

Close Scope string_scope.

Section Pack.
Context {A : Type} (n : nat) (Hn : 0 < n).

Lemma pack_go_nil (fuel : nat) : pack_go fuel n ([] : list A) = [].
Proof. destruct fuel, n; reflexivity. Qed.

Lemma pack_go_cons (fuel : nat) (a : A) (l : list A) :
  pack_go (S fuel) n (a :: l) = take n (a :: l) :: pack_go fuel n (drop n (a :: l)).
Proof. destruct n as [|n']; [lia|reflexivity]. Qed.

Lemma pack_go_concat (fuel : nat) (l : list A) :
  length l ≤ fuel → concat (pack_go fuel n l) = l.
Proof.
  revert l. induction fuel as [|fuel IH]; intros l Hl.
  - destruct l; [done|simpl in Hl; lia].
  - destruct l as [|a l]; [by rewrite pack_go_nil|].
    rewrite pack_go_cons. cbn [concat]. rewrite IH.
    + apply take_drop.
    + rewrite length_drop. simpl in Hl |- *. lia.
Qed.

Lemma pack_go_sizes (fuel : nat) (l : list A) :
  Forall (fun c => 0 < length c ≤ n) (pack_go fuel n l).
Proof.
  revert l. induction fuel as [|fuel IH]; intros l; [constructor|].
  destruct l as [|a l]; [rewrite pack_go_nil; constructor|].
  rewrite pack_go_cons. constructor; [|apply IH].
  rewrite length_take. simpl. lia.
Qed.

Lemma pack_go_full (fuel : nat) (l : list A) (i : nat) (c : list A) :
  pack_go fuel n l !! i = Some c → S i < length (pack_go fuel n l) → length c = n.
Proof.
  revert l i. induction fuel as [|fuel IH]; intros l i Hi Hlen; [done|].
  destruct l as [|a l]; [by rewrite pack_go_nil in Hi|].
  rewrite pack_go_cons in Hi, Hlen. destruct i as [|i].
  - simpl in Hi. injection Hi as <-. cbn [length] in Hlen.
    destruct (drop n (a :: l)) as [|b rest] eqn:Hd.
    + rewrite pack_go_nil in Hlen. simpl in Hlen. lia.
    + assert (Hd' : length (drop n (a :: l)) > 0) by (rewrite Hd; simpl; lia).
      rewrite length_drop in Hd'. rewrite length_take. lia.
  - simpl in Hi, Hlen. eapply IH; [exact Hi|lia].
Qed.

Lemma pack_go_length (fuel : nat) (l : list A) :
  length l ≤ fuel → length (pack_go fuel n l) = (length l + n - 1) / n.
Proof.
  revert l. induction fuel as [|fuel IH]; intros l Hl.
  - destruct l; [|simpl in Hl; lia]. simpl. rewrite Nat.div_small; lia.
  - destruct l as [|a l].
    + rewrite pack_go_nil. simpl. rewrite Nat.div_small; lia.
    + rewrite pack_go_cons. cbn [length]. rewrite IH.
      2:{ rewrite length_drop. simpl in Hl. simpl. lia. }
      rewrite length_drop. cbn [length].
      replace (S (length l) + n - 1) with (length l + 1 * n) by lia.
      rewrite Nat.div_add by lia.
      destruct (decide (length l < n)) as [Hlt|Hge].
      * replace (S (length l) - n + n - 1) with (n - 1) by lia.
        rewrite !Nat.div_small by lia. lia.
      * replace (S (length l) - n + n - 1) with (length l) by lia. lia.
Qed.

End Pack.

Lemma concat_Permutation {B} (ls ls' : list (list B)) :
  ls ≡ₚ ls' → concat ls ≡ₚ concat ls'.
Proof.
  induction 1 as [|x l l' _ IH|x y l|l l' l'' _ IH1 _ IH2]; cbn [concat].
  - done.
  - by apply Permutation_app_head.
  - apply Permutation_app_swap_app.
  - by rewrite IH1.
Qed.

(** C4: with the batch size 500 of [send_to_pg], the [B] records are cut
    into consecutive chunks of 1 to 500 records, all of 500 but the last;
    there are [ceil(B/500)] rendered statements, and in whatever order the
    workers hand the statements back their rows are the [B] records, each
    exactly once. *)
Theorem batches_partition {A} (admins : list A) :
  let chunks := pack batch_size admins in
  concat chunks = admins ∧
  Forall (fun c => 0 < length c ≤ batch_size) chunks ∧
  (∀ i c, chunks !! i = Some c → S i < length chunks → length c = batch_size) ∧
  length (par_map render_chunk chunks) = (length admins + batch_size - 1) / batch_size ∧
  ∀ out, out ≡ₚ par_map render_chunk chunks →
    length out = (length admins + batch_size - 1) / batch_size ∧
    concat (map snd out) ≡ₚ admins.
Proof.
  assert (Hn : 0 < batch_size) by (unfold batch_size; lia).
  cbv zeta. unfold pack.
  assert (Hlen : length (par_map render_chunk (pack_go (length admins) batch_size admins))
                 = (length admins + batch_size - 1) / batch_size).
  { unfold par_map. rewrite length_map. by apply pack_go_length. }
  split; [by apply pack_go_concat|].
  split; [by apply pack_go_sizes|].
  split; [intros i c; by apply pack_go_full|].
  split; [exact Hlen|].
  intros out Hout. split.
  - by rewrite Hout.
  - rewrite (concat_Permutation _ _ (Permutation_map snd Hout)).
    unfold par_map. rewrite map_map.
    rewrite (map_ext _ (fun c => c)) by done. rewrite map_id.
    rewrite pack_go_concat; done.
Qed.

(* ------------------------------------------------------------------ *)
(** ** The city filter *)

(** C7: a zone that is not a city changes nothing in a run (result,
    table contents and statements sent are those of the run without it),
    and every row of every rendered statement is the parameter list of a
    city zone of the input. *)
Theorem import_zones_only_cities {tbl} (st : Store tbl) (l1 l2 : list Zone)
    (z : Zone) (db : tbl) :
  z.(zone_type) ≠ Some City →
  import_zones st (l1 ++ z :: l2) db = import_zones st (l1 ++ l2) db ∧
  ∀ zones q chunk row,
    In (q, chunk) (par_map render_chunk (pack batch_size (cities zones))) →
    In row chunk →
    ∃ z', In z' zones ∧ z'.(zone_type) = Some City ∧ row = into_sql_params (from_zone z').
Proof.
  intros Hz. split.
  - unfold import_zones, cities. f_equal.
    rewrite !filter_app, filter_cons_False by exact Hz. reflexivity.
  - intros zones q chunk row Hin Hrow.
    unfold par_map in Hin. apply in_map_iff in Hin as [c [Hc Hc_in]].
    unfold render_chunk in Hc. injection Hc as _ ->.
    assert (Hr : In row (List.concat (pack batch_size (cities zones)))).
    { apply in_concat. eauto. }
    unfold pack in Hr. rewrite pack_go_concat in Hr by (unfold batch_size; lia).
    unfold cities in Hr. rewrite map_map in Hr.
    apply in_map_iff in Hr as [z' [<- Hz']].
    apply list_elem_of_In, list_elem_of_filter in Hz' as [Hcity Hz'].
    exists z'. split; [by apply list_elem_of_In|]. split; [exact Hcity|reflexivity].
Qed.

(** A store that accepts every statement and leaves its table as is. *)
Definition store_accept_all : Store unit :=
  mkStore unit true (fun _ _ t => Some t) (fun _ => true).

Lemma import_zones_only_cities_witness :
  zone_default.(zone_type) ≠ Some City ∧
  import_zones store_accept_all ([] ++ zone_default :: [zone2]) tt
  = import_zones store_accept_all ([] ++ [zone2]) tt ∧
  ∀ zones q chunk row,
    In (q, chunk) (par_map render_chunk (pack batch_size (cities zones))) →
    In row chunk →
    ∃ z', In z' zones ∧ z'.(zone_type) = Some City ∧ row = into_sql_params (from_zone z').
Proof.
  split; [discriminate|].
  apply (import_zones_only_cities store_accept_all [] [zone2] zone_default tt).
  discriminate.
Defined.

(* ------------------------------------------------------------------ *)
(** ** The transaction *)

Section LoaderProofs.
Context {tbl : Type} (st : Store tbl).

Definition exec_stmt (s : Stmt) : TxM tbl unit :=
  let '(q, ps) := s in execute st q ps.

Lemma for_each_ext {B} (xs : list B) (f g : B -> TxM tbl unit) :
  (∀ x, f x = g x) → for_each xs f = for_each xs g.
Proof.
  intros Hfg. induction xs as [|x xs IH]; [done|].
  cbn [for_each]. rewrite Hfg, IH. reflexivity.
Qed.

Lemma for_each_map {B C} (xs : list B) (h : B -> C) (f : C -> TxM tbl unit) :
  for_each (map h xs) f = for_each xs (fun x => f (h x)).
Proof. induction xs as [|x xs IH]; [done|]. cbn [for_each map]. by rewrite IH. Qed.

Lemma send_to_pg_body_stmts (admins : list (list SqlValue)) :
  send_to_pg_body st admins =
  for_each ((truncate_query, []) :: batches admins) exec_stmt.
Proof.
  unfold send_to_pg_body, batches.
  set (chunks := par_map render_chunk (pack batch_size admins)).
  assert (H : ∀ body, (∀ q cs, body (q, cs) = execute st q (List.concat cs)) →
              for_each chunks body
              = for_each (map (fun '(query, admins_chunks) =>
                                 (query, List.concat admins_chunks)) chunks) exec_stmt).
  { intros body Hb. rewrite for_each_map. apply for_each_ext.
    intros [q cs]. by rewrite Hb. }
  cbn [for_each]. rewrite H; [reflexivity|]. intros q cs. reflexivity.
Qed.

(** Running statements with [?] after each: all succeed, or the run stops
    at the first failing one. *)
Lemma for_each_exec_ok (ss : list Stmt) (w w' : tbl) (log : list Stmt) :
  exec_seq st ss w = Some w' →
  for_each ss exec_stmt (mkTxn w log) = (Ok tt, mkTxn w' (log ++ ss)).
Proof.
  revert w log. induction ss as [|[q ps] ss IH]; intros w log He.
  - injection He as <-. by rewrite app_nil_r.
  - cbn [exec_seq] in He. cbn [for_each]. unfold tx_bind, exec_stmt at 1, execute.
    cbn [txn_working txn_log].
    destruct (store_exec st q ps w) as [t'|] eqn:Hq; [|discriminate].
    rewrite (IH t' _ He). by rewrite <- app_assoc.
Qed.

Lemma for_each_exec_fail (ss : list Stmt) (w : tbl) (log : list Stmt) :
  exec_seq st ss w = None →
  ∃ k w1 q ps, ss !! k = Some (q, ps) ∧ exec_seq st (take k ss) w = Some w1 ∧
    store_exec st q ps w1 = None ∧
    for_each ss exec_stmt (mkTxn w log)
    = (Err (ExecutionError q), mkTxn w1 (log ++ take (S k) ss)).
Proof.
  revert w log. induction ss as [|[q ps] ss IH]; intros w log He; [discriminate|].
  cbn [exec_seq] in He. cbn [for_each]. unfold tx_bind, exec_stmt at 1, execute.
  cbn [txn_working txn_log].
  destruct (store_exec st q ps w) as [t'|] eqn:Hq.
  - destruct (IH t' (log ++ [(q, ps)]) He) as (k & w1 & q' & ps' & Hk & Hpre & Hf & Hrun).
    exists (S k), w1, q', ps'. split; [done|]. split.
    { cbn [take exec_seq]. by rewrite Hq. }
    split; [done|]. rewrite Hrun. by rewrite <- app_assoc.
  - exists 0, w, q, ps. repeat split; done.
Qed.

End LoaderProofs.

(** C1: one run is one transaction.  It succeeds exactly when the
    transaction opens, the [TRUNCATE] and every batch statement (in the
    order sent) succeed and [COMMIT] succeeds; then the visible table is
    the result of those statements.  On any failure the visible table is
    the one before the run.  Sending stops at the first failing statement:
    the statements sent are those up to and including it. *)
Theorem send_to_pg_transactional {tbl} (st : Store tbl)
    (admins : list (list SqlValue)) (db : tbl) :
  let stmts := (truncate_query, []) :: batches admins in
  match send_to_pg st admins db with
  | (r, visible, sent) =>
    (r = Ok tt ↔ store_begin_ok st = true ∧
                 ∃ w, exec_seq st stmts db = Some w ∧ store_commit_ok st w = true) ∧
    (r = Ok tt → exec_seq st stmts db = Some visible) ∧
    (r ≠ Ok tt → visible = db) ∧
    (store_begin_ok st = true →
       (∀ w, exec_seq st stmts db = Some w → sent = stmts) ∧
       (exec_seq st stmts db = None →
          ∃ k w q ps, stmts !! k = Some (q, ps) ∧
            exec_seq st (take k stmts) db = Some w ∧
            store_exec st q ps w = None ∧
            sent = take (S k) stmts ∧ r = Err (ExecutionError q)))
  end.
Proof.
  cbv zeta. unfold send_to_pg.
  destruct (store_begin_ok st) eqn:Hb.
  2:{ split; [split; [discriminate|intros [? _]; discriminate]|].
      split; [discriminate|]. split; [done|]. discriminate. }
  rewrite send_to_pg_body_stmts.
  destruct (exec_seq st ((truncate_query, []) :: batches admins) db) as [w|] eqn:He.
  - rewrite (for_each_exec_ok st _ db w [] He). cbn [txn_working txn_log app].
    destruct (store_commit_ok st w) eqn:Hc.
    + split; [split; [eauto|done]|]. split; [done|]. split; [done|].
      intros _. split; [intros w' Hw'; done|discriminate].
    + split; [split; [discriminate|intros [_ (w' & Hw' & Hc')]; congruence]|].
      split; [discriminate|]. split; [done|].
      intros _. split; [intros w' Hw'; done|discriminate].
  - destruct (for_each_exec_fail st _ db [] He) as (k & w1 & q & ps & Hk & Hpre & Hf & Hrun).
    rewrite Hrun. cbn [txn_log app].
    split; [split; [discriminate|intros [_ (w' & Hw' & _)]; congruence]|].
    split; [discriminate|]. split; [done|].
    intros _. split; [intros w' Hw'; congruence|].
    intros _. exists k, w1, q, ps. done.
Qed.

(* ------------------------------------------------------------------ *)
(** ** The driver: [index_cities] and [main] *)

Inductive IndexError :=
| ReadError
| LoadFailed (e : LoadError).

(** How [index_cities] ends: a panic of [expect], an [Err], or [Ok]. *)
Inductive Outcome :=
| Panicked
| Failed (e : IndexError)
| Succeeded.

(** [index_cities]: [connect_ok] is whether [Connection::connect]
    succeeds (otherwise [expect] panics); [file] is [None] when
    [read_zones_from_file] fails, else the records read, [None] for a
    record that fails to decode ([filter_map] with [r.ok()] skips it).
    Returns how the run ends and the table visible afterwards. *)
Definition index_cities {tbl} (st : Store tbl) (connect_ok : bool)
    (file : option (list (option Zone))) (db : tbl) : Outcome * tbl :=
  if connect_ok then
    match file with
    | None => (Failed ReadError, db)
    | Some records =>
        let zones := omap (fun r => r) records in
        match import_zones st zones db with
        | (Ok _, visible, _) => (Succeeded, visible)
        | (Err e, visible, _) => (Failed (LoadFailed e), visible)
        end
    end
  else (Panicked, db).


(** A table kept as the list of parameter vectors of its rows: [TRUNCATE]
    empties it, any other statement appends its parameters. *)
Definition store_rows : Store (list (list SqlValue)) :=
  mkStore _ true
    (fun q ps t => if decide (q = truncate_query) then Some [] else Some (t ++ [ps])%list)
    (fun _ => true).

Close Scope string_scope.

(* ------------------------------------------------------------------ *)
(** ** Further properties of the code *)

Lemma length_concat_rows (rows : list (list SqlValue)) :
  Forall (fun r => length r = 8) rows → length (List.concat rows) = 8 * length rows.
Proof.
  induction 1 as [|r rows Hr _ IH]; [done|].
  cbn [List.concat length]. rewrite length_app, Hr, IH. lia.
Qed.

(** Every batch statement of a run gets exactly [8] parameters per row
    of its [VALUES] list: a chunk of [n] records (from 1 to 500) is
    rendered as [render_query n], whose placeholders run up to [8 * n],
    and sent with [8 * n] parameters. *)
Theorem batch_params_match_placeholders (zones : list Zone) :
  Forall (fun '(q, ps) => ∃ n, q = render_query n ∧ 1 ≤ n ≤ batch_size ∧ length ps = 8 * n)
         (batches (cities zones)).
Proof.
  apply List.Forall_forall. intros [q ps] Hin.
  unfold batches, par_map in Hin. rewrite map_map in Hin.
  apply in_map_iff in Hin as [c [Hc Hc_in]]. injection Hc as <- <-.
  exists (length c). split; [done|].
  assert (Hsz := pack_go_sizes batch_size ltac:(unfold batch_size; lia)
                  (length (cities zones)) (cities zones)).
  rewrite List.Forall_forall in Hsz. specialize (Hsz c Hc_in). split; [lia|].
  apply length_concat_rows, List.Forall_forall. intros row Hrow.
  assert (Hr : In row (List.concat (pack batch_size (cities zones)))).
  { apply in_concat. eauto. }
  unfold pack in Hr. rewrite pack_go_concat in Hr by (unfold batch_size; lia).
  unfold cities in Hr. rewrite map_map in Hr.
  apply in_map_iff in Hr as [z [<- _]]. reflexivity.
Qed.

(** The [id] column is [zone.id.index as i64]: always in the [i64]
    range, and equal to the index when the index is below [2^63]. *)
Theorem from_zone_id (zone : Zone) :
  (- 2 ^ 63 ≤ (from_zone zone).(ar_id) < 2 ^ 63)%Z ∧
  ((Z.of_nat zone.(id).(index) < 2 ^ 63)%Z →
   (from_zone zone).(ar_id) = Z.of_nat zone.(id).(index)).
Proof.
  unfold from_zone, usize_as_i64; cbn [ar_id].
  set (n := Z.of_nat (index (id zone))).
  assert (Hb : (0 ≤ n mod 2 ^ 64 < 2 ^ 64)%Z) by (apply Z.mod_pos_bound; lia).
  split.
  - destruct (Z.ltb_spec (n mod 2 ^ 64) (2 ^ 63)); lia.
  - intros Hn. assert (Hm : (n mod 2 ^ 64 = n)%Z).
    { apply Z.mod_small. unfold n. lia. }
    rewrite Hm. destruct (Z.ltb_spec n (2 ^ 63)); lia.
Qed.

(** The zone with its tag map replaced. *)
Definition with_tags (zone : Zone) (t : gmap string string) : Zone :=
  mkZone zone.(id) zone.(osm_id) zone.(name) t zone.(center) zone.(boundary) zone.(zone_type).

(** The non-empty [;]-separated segments of the postal-code value. *)
Definition postcode_segments (zone : Zone) : list string :=
  filter (fun s => s ≠ ""%string) (split ";" (postcode_value zone)).

(** When [addr:postcode] is present, [postal_code] is never read: setting
    it to anything leaves [post_code] as it is, even when the
    [addr:postcode] value has no non-empty segment. *)
Theorem postcode_no_fallback (zone : Zone) (v w : string) :
  zone.(tags) !! "addr:postcode"%string = Some v →
  (from_zone (with_tags zone (<["postal_code"%string := w]> zone.(tags)))).(ar_post_code)
  = (from_zone zone).(ar_post_code).
Proof.
  intros Hv. unfold from_zone, with_tags. cbn [ar_post_code tags].
  rewrite (lookup_insert_ne _ "postal_code"%string "addr:postcode"%string) by discriminate.
  rewrite Hv. reflexivity.
Qed.

Lemma postcode_no_fallback_witness :
  let z := with_tags zone_default (<["addr:postcode"%string := ";"%string]> ∅) in
  z.(tags) !! "addr:postcode"%string = Some ";"%string ∧
  (from_zone (with_tags z (<["postal_code"%string := "75001"%string]> z.(tags)))).(ar_post_code)
  = (from_zone z).(ar_post_code).
Proof.
  cbv zeta. split; [vm_compute; reflexivity|].
  apply (postcode_no_fallback _ ";"%string). vm_compute. reflexivity.
Defined.

Lemma from_zone_post_code_sorted (zone : Zone) :
  (from_zone zone).(ar_post_code) = format_zip_codes (sorted (postcode_segments zone)).
Proof.
  unfold from_zone, postcode_segments, postcode_value; cbn [ar_post_code].
  rewrite filter_is_empty. by destruct (tags zone !! "addr:postcode"%string).
Qed.

Lemma strongly_sorted_last (l : list string) (b s : string) :
  StronglySorted String.le l → last l = Some b → s ∈ l → String.le s b.
Proof.
  induction l as [|a l IH]; intros Hs Hb Hin; [by apply not_elem_of_nil in Hin|].
  apply StronglySorted_inv in Hs as [Hs Ha].
  destruct l as [|a' l].
  - rewrite last_singleton in Hb. injection Hb as <-.
    apply list_elem_of_singleton in Hin as ->. reflexivity.
  - rewrite last_cons_cons in Hb.
    apply elem_of_cons in Hin as [->|Hin]; [|by apply IH].
    apply last_Some_elem_of, list_elem_of_In in Hb.
    rewrite List.Forall_forall in Ha. by apply Ha.
Qed.

(** [post_code] is absent exactly when the value has no non-empty
    segment; with one segment it is that segment; with more it is
    ["<a>-<b>"] where [a] is the lexicographically smallest segment and
    [b] the largest. *)
Theorem post_code_bounds (zone : Zone) :
  let segs := postcode_segments zone in
  match (from_zone zone).(ar_post_code) with
  | None => segs = []
  | Some p =>
      segs = [p] ∨
      ∃ a b, 2 ≤ length segs ∧ a ∈ segs ∧ b ∈ segs ∧ p = (a ++ "-" ++ b)%string ∧
             ∀ s, s ∈ segs → String.le a s ∧ String.le s b
  end.
Proof.
  cbv zeta. rewrite from_zone_post_code_sorted.
  set (segs := postcode_segments zone).
  assert (Hp : sorted segs ≡ₚ segs) by apply merge_sort_Permutation.
  assert (Hs : StronglySorted String.le (sorted segs)).
  { unfold sorted. apply StronglySorted_merge_sort; apply _. }
  unfold format_zip_codes.
  destruct (sorted segs) as [|a [|a' rest]] eqn:Hl.
  - by apply Permutation_nil_l in Hp.
  - left. by apply Permutation_singleton_l in Hp.
  - right. cbn [length head]. unfold unwrap.
    destruct (last (a :: a' :: rest)) as [b|] eqn:Hb.
    2:{ by apply last_None in Hb. }
    exists a, b. split; [rewrite <- Hp; simpl; lia|].
    split; [rewrite <- Hp; apply elem_of_cons; by left|].
    split; [rewrite <- Hp; by apply last_Some_elem_of|].
    split; [done|].
    intros s Hin. rewrite <- Hp in Hin. split.
    + apply elem_of_cons in Hin as [->|Hin]; [reflexivity|].
      apply StronglySorted_inv in Hs as [_ Ha].
      rewrite List.Forall_forall in Ha. apply Ha. by apply list_elem_of_In.
    + by eapply strongly_sorted_last.
Qed.

(** With no record, a run still opens the transaction, sends the
    [TRUNCATE] alone and commits it: the table is emptied. *)
Theorem send_to_pg_empty {tbl} (st : Store tbl) (db : tbl) :
  send_to_pg st [] db =
  if store_begin_ok st then
    match store_exec st truncate_query [] db with
    | Some w =>
        if store_commit_ok st w then (Ok tt, w, [(truncate_query, [])])
        else (Err CommitError, db, [(truncate_query, [])])
    | None => (Err (ExecutionError truncate_query), db, [(truncate_query, [])])
    end
  else (Err ConnectionError, db, []).
Proof.
  unfold send_to_pg. destruct (store_begin_ok st); [|done].
  unfold send_to_pg_body, tx_bind, execute. cbn [txn_working txn_log app].
  destruct (store_exec st truncate_query [] db); reflexivity.
Qed.

(** A successful run sends the [TRUNCATE] first, then one statement per
    chunk: [1 + ceil(B/500)] statements for [B] records. *)
Theorem send_to_pg_sent_on_success {tbl} (st : Store tbl)
    (admins : list (list SqlValue)) (db : tbl) :
  match send_to_pg st admins db with
  | (Ok _, _, sent) =>
      head sent = Some (truncate_query, []) ∧
      length sent = 1 + (length admins + batch_size - 1) / batch_size
  | (Err _, _, _) => True
  end.
Proof.
  unfold send_to_pg. destruct (store_begin_ok st); [|done].
  rewrite send_to_pg_body_stmts.
  destruct (exec_seq st ((truncate_query, []) :: batches admins) db) as [w|] eqn:He.
  - rewrite (for_each_exec_ok st _ db w [] He). cbn [txn_working txn_log app].
    destruct (store_commit_ok st w); [|done].
    split; [done|]. cbn [length]. f_equal.
    unfold batches, par_map. rewrite !length_map. unfold pack.
    apply pack_go_length; [unfold batch_size; lia|done].
  - destruct (for_each_exec_fail st _ db [] He) as (k & w1 & q & ps & _ & _ & _ & ->).
    done.
Qed.

Lemma send_to_pg_body_from_truncate {tbl} (st : Store tbl) (e : tbl)
    (admins : list (list SqlValue)) (db db' : tbl) :
  (∀ t, store_exec st truncate_query [] t = Some e) →
  send_to_pg_body st admins (mkTxn db []) = send_to_pg_body st admins (mkTxn db' []).
Proof.
  intros H. unfold send_to_pg_body, tx_bind, execute.
  cbn [txn_working txn_log]. by rewrite !H.
Qed.

(** When [TRUNCATE] leaves the same table [e] whatever it starts from,
    loading the same zones again on the table a successful run left
    succeeds, sends the same statements and leaves the same table. *)
Theorem import_zones_idempotent {tbl} (st : Store tbl) (e : tbl)
    (zones : list Zone) (db : tbl) :
  (∀ t, store_exec st truncate_query [] t = Some e) →
  match import_zones st zones db with
  | (Ok _, visible, sent) => import_zones st zones visible = (Ok tt, visible, sent)
  | (Err _, _, _) => True
  end.
Proof.
  intros H. unfold import_zones, send_to_pg. destruct (store_begin_ok st); [|done].
  destruct (send_to_pg_body st (cities zones) (mkTxn db [])) as [r t] eqn:E.
  destruct r as [[]|]; [|done].
  destruct (store_commit_ok st (txn_working t)) eqn:Hc; [|done].
  rewrite (send_to_pg_body_from_truncate st e _ (txn_working t) db H), E, Hc.
  reflexivity.
Qed.

Lemma import_zones_idempotent_witness :
  (∀ t, store_exec store_rows truncate_query [] t = Some []) ∧
  match import_zones store_rows [zone2; zone_default] [[SqlNull]] with
  | (Ok _, visible, sent) =>
      import_zones store_rows [zone2; zone_default] visible = (Ok tt, visible, sent)
  | (Err _, _, _) => True
  end.
Proof.
  assert (H : ∀ t, store_exec store_rows truncate_query [] t = Some []).
  { intros t. cbn [store_exec store_rows]. by rewrite decide_True. }
  split; [exact H|].
  exact (import_zones_idempotent store_rows [] [zone2; zone_default] [[SqlNull]] H).
Defined.


(** A record that fails to decode is skipped: the run is the one without
    it. *)
Theorem index_cities_skips_undecodable {tbl} (st : Store tbl) (connect_ok : bool)
    (r1 r2 : list (option Zone)) (db : tbl) :
  index_cities st connect_ok (Some (r1 ++ None :: r2)) db
  = index_cities st connect_ok (Some (r1 ++ r2)) db.
Proof. unfold index_cities. by rewrite !omap_app. Qed.

